(** * csql: composable SQL fragments

    A shallow embedding of the fragment algebra of [index.ts]: the
    fragment classes with [map], [prepare] and [QueryFragment.staticPrepare],
    [Fragment.from], the [sql] template tag with its build method and its
    [query] method, and the helper [a].

    The repository holds two editions of [index.ts].  The edition that the
    test-suite exercises (placeholders start at [$1], accessors are
    accumulated with [push], plain values become [ValueFragment]s) is
    embedded at the top level.  The edition kept under [src/index.ts]
    (placeholders start at [$0], accessors are accumulated with [concat],
    plain values become [ArgumentFragment]s) is embedded in [Module Index]. *)

From Stdlib Require Import String Ascii List ZArith Lia DecimalString DecimalNat.
From stdpp Require Import base list strings.

Set Warnings "-register-all".

Open Scope string_scope.
Open Scope list_scope.

(** ** JavaScript values *)

(** [type Value]: what can be handed to postgres as a bind value.  Numbers
    are kept as integers; dates by their epoch milliseconds. *)
Inductive Value : Type :=
| VNull
| VUndefined
| VString (s : string)
| VNumber (n : Z)
| VDate (ms : Z)
| VBuffer (bytes : list Byte.byte)
| VArray (items : list Value)
| VObject (fields : list (string * Value)).

(** An object with string keys, [{ [key: string]: Value }]. *)
Definition JsObject : Type := list (string * Value).

(** What every object inherits comes from the runtime: [inherited key] is
    the member of [Object.prototype] under [key] ([constructor], [toString],
    [__proto__], ...), [None] when it has no such member. *)
Class ObjectPrototype : Type := inherited : string -> option Value.

(** Property access [obj[key]].  The list holds the own properties of the
    object, the first binding of a key being the one in force; a key that is
    not an own property is looked up in the prototype, and reads
    [undefined] when it is not there either. *)
Fixpoint get {proto : ObjectPrototype} (obj : JsObject) (key : string) : Value :=
  match obj with
  | [] => default VUndefined (inherited key)
  | (k, v) :: rest => if String.eqb k key then v else get rest key
  end.

(** A prototype without members, as [Object.create(null)] gives; used to run
    the definitions on sample objects. *)
Definition bare_prototype : ObjectPrototype := fun _ => None.

(** [type Accessor<A> = (values: A) => Value] *)
Definition Accessor (A : Type) : Type := A -> Value.

(** [type Mapper<I, A> = (values: I) => A] *)
Definition Mapper (I A : Type) : Type := I -> A.

(** Template interpolation [`${n}`] of a non-negative integer. *)
Definition decimal (n : nat) : string :=
  NilEmpty.string_of_uint (Nat.to_uint n).

(** [strings[i]] of a [TemplateStringsArray].  A tagged template always
    supplies one more string than it has expressions; an index outside the
    array reads [undefined], which renders as the empty text. *)
Definition segment (strings : list string) (i : nat) : string :=
  default "" (strings !! i).

(** [array.flatMap((x, index) => f index x)] *)
Definition flatMap {X Y : Type} (f : nat -> X -> list Y) (xs : list X) : list Y :=
  List.concat (imap f xs).

(** ** Completions *)

Inductive exn : Type :=
| TypeError (message : string)
| ClientError (reason : string).

(** A synchronous call either returns or throws. *)
Inductive result (T : Type) : Type :=
| Return (v : T)
| Throw (e : exn).
Arguments Return {T} v.
Arguments Throw {T} e.

(** A settled promise: [await] either yields the value or rethrows. *)
Inductive Promise (T : Type) : Type :=
| Resolved (v : T)
| Rejected (e : exn).
Arguments Resolved {T} v.
Arguments Rejected {T} e.

Definition await {T U : Type} (p : Promise T) (k : T -> Promise U) : Promise U :=
  match p with
  | Resolved v => k v
  | Rejected e => Rejected e
  end.

Notation "x <- 'await' p ;; k" := (await p (fun x => k))
  (at level 100, p at next level, right associativity).

(** ** The escaping adapter ([pg-format]) *)

(** [format.string], [format.literal] and [format.ident] are imported from
    the package [pg-format]; the development is parametric in them. *)
Class PgFormat : Type := {
  format_string : string -> string;
  format_literal : Value -> string;
  format_ident : string -> string
}.

(** [pg-format]'s [string] hands back a copy of a string argument; the tests
    of the repository depend on it ([sql`QUERY`] is sent as ["QUERY"]). *)
Definition StringVerbatim (fmt : PgFormat) : Prop :=
  forall s : string, format_string s = s.

(** The double quote character. *)
Definition dquote : string := String (ascii_of_nat 34) EmptyString.

(** A small adapter used to run the definitions on concrete queries: strings
    are copied, identifiers are wrapped in double quotes, literals are
    rendered without quoting rules. *)
Definition sample_literal (v : Value) : string :=
  match v with
  | VNull | VUndefined => "NULL"
  | VString s => "'" +:+ s +:+ "'"
  | VNumber n => if (n <? 0)%Z then "-" +:+ decimal (Z.abs_nat n) else decimal (Z.abs_nat n)
  | _ => "'?'"
  end.

Definition sample_format : PgFormat := {|
  format_string := fun s => s;
  format_literal := sample_literal;
  format_ident := fun s => dquote +:+ s +:+ dquote
|}.

(** ** Fragments *)

(** [abstract class Fragment<A>] with its six subclasses. *)
Inductive Fragment (A : Type) : Type :=
| StringFragment (text : string)
| ArgumentFragment (accessor : Accessor A)
| QueryFragment (fragments : list (Fragment A))
| LiteralFragment (value : Value)
| IdentifierFragment (name : string)
| ValueFragment (value : Value).
Arguments StringFragment {A} text.
Arguments ArgumentFragment {A} accessor.
Arguments QueryFragment {A} fragments.
Arguments LiteralFragment {A} value.
Arguments IdentifierFragment {A} name.
Arguments ValueFragment {A} value.

(** [fragment.map(mapper)] *)
Fixpoint Fragment_map {I A : Type} (mapper : Mapper I A) (F : Fragment A) : Fragment I :=
  match F with
  | StringFragment text => StringFragment text
  | ArgumentFragment accessor =>
      ArgumentFragment (fun values => accessor (mapper values))
  | QueryFragment fragments =>
      QueryFragment (map (fun fragment => Fragment_map mapper fragment) fragments)
  | LiteralFragment value => LiteralFragment value
  | IdentifierFragment name => IdentifierFragment name
  | ValueFragment value => ValueFragment value
  end.

(** The two arrays that [staticPrepare] fills while it walks the fragments. *)
Definition PrepareState (A : Type) : Type := (list string * list (Accessor A))%type.

(** The body of the [forEach] of [staticPrepare]; [prep] is the dynamically
    dispatched [fragment.prepare].  Both arrays are extended in place
    ([push]). *)
Definition prepareStep {A : Type}
    (prep : Fragment A -> nat -> string * list (Accessor A))
    (argOffset : nat) (st : PrepareState A) (fragment : Fragment A) : PrepareState A :=
  let '(queryStrings, accessors) := st in
  let '(fragmentString, fragmentAccessors) :=
    prep fragment (argOffset + length accessors) in
  (queryStrings ++ [fragmentString], accessors ++ fragmentAccessors).

Definition staticPrepareWith {A : Type}
    (prep : Fragment A -> nat -> string * list (Accessor A))
    (fragments : list (Fragment A)) (argOffset : nat) : string * list (Accessor A) :=
  let '(queryStrings, accessors) :=
    fold_left (prepareStep prep argOffset) fragments ([], []) in
  (String.concat "" queryStrings, accessors).

Section Prepare.
Context {fmt : PgFormat} {A : Type}.

(** [fragment.prepare(argOffset)] *)
Fixpoint prepare (F : Fragment A) (argOffset : nat) : string * list (Accessor A) :=
  match F with
  | StringFragment text => (format_string text, [])
  | ArgumentFragment accessor => ("$" +:+ decimal argOffset, [accessor])
  | QueryFragment fragments => staticPrepareWith prepare fragments argOffset
  | LiteralFragment value => (format_literal value, [])
  | IdentifierFragment name => (format_ident name, [])
  | ValueFragment value => ("$" +:+ decimal argOffset, [fun _ => value])
  end.

(** [QueryFragment.staticPrepare(fragments, argOffset)] *)
Definition staticPrepare (fragments : list (Fragment A)) (argOffset : nat)
  : string * list (Accessor A) :=
  staticPrepareWith prepare fragments argOffset.
End Prepare.

(** ** The [sql] template tag *)

(** The function object returned by [sql]; it closes over [fragments]. *)
Record BuildMethod (A : Type) : Type := { fragments : list (Fragment A) }.
Arguments fragments {A} b.

(** [build()] *)
Definition build {A : Type} (b : BuildMethod A) : Fragment A :=
  QueryFragment (fragments b).

(** [build(mapper)] *)
Definition build_mapped {I A : Type} (b : BuildMethod A) (mapper : Mapper I A) : Fragment I :=
  QueryFragment (map (fun fragment => Fragment_map mapper fragment) (fragments b)).

(** What may stand in a [${...}] of the template. *)
Inductive Source (A : Type) : Type :=
| SrcFragment (F : Fragment A)
| SrcBuild (b : BuildMethod A)
| SrcAccessor (f : Accessor A)
| SrcValue (v : Value).
Arguments SrcFragment {A} F.
Arguments SrcBuild {A} b.
Arguments SrcAccessor {A} f.
Arguments SrcValue {A} v.

(** [Fragment.from(source)] *)
Definition Fragment_from {A : Type} (source : Source A) : Fragment A :=
  match source with
  | SrcFragment F => F
  | SrcBuild b => build b
  | SrcAccessor f => ArgumentFragment f
  | SrcValue v => ValueFragment v
  end.

(** The [fragments] array built by [sql]. *)
Definition sql_fragments {A : Type} (strings : list string) (args : list (Source A))
  : list (Fragment A) :=
  StringFragment (segment strings 0) ::
  flatMap (fun index arg =>
             [Fragment_from arg; StringFragment (segment strings (index + 1))]) args.

(** [sql(strings, ...args)] *)
Definition sql {A : Type} (strings : list string) (args : list (Source A)) : BuildMethod A :=
  {| fragments := sql_fragments strings args |}.

(** ** The [query] method *)

(** [pg.QueryConfig] as far as the library fills it in. *)
Record QueryConfig : Type := {
  name : string;
  text : string;
  values : list Value
}.

Definition QueryResultRow : Type := JsObject.

Record GenericQueryResult : Type := { rows : list QueryResultRow }.

(** [interface Client]: the promise of [conn.query(config)], settled. *)
Definition Client : Type := QueryConfig -> Promise GenericQueryResult.

Record QueryOptions : Type := {
  validate : option (QueryResultRow -> bool)
}.

(** [options?.validate] *)
Definition validator (options : option QueryOptions) : option (QueryResultRow -> bool) :=
  match options with
  | Some o => validate o
  | None => None
  end.

(** [ret.rows.map((row, index) => ...)] with the throwing callback of the
    validation branch; [index] is the index of the head of [rows]. *)
Fixpoint validateRows (validate : QueryResultRow -> bool) (index : nat)
    (rows : list QueryResultRow) : Promise (list QueryResultRow) :=
  match rows with
  | [] => Resolved []
  | row :: rest =>
      if negb (validate row)
      then Rejected (TypeError ("Row " +:+ decimal index +:+ " is invalid"))
      else checked <- await validateRows validate (S index) rest ;;
           Resolved (row :: checked)
  end.

(** [A extends object]: the default parameter [values: A = {} as any] makes
    the empty object stand for an argument of every shape. *)
Class ArgumentShape (A : Type) : Type := emptyObject : A.

#[export] Instance JsObject_shape : ArgumentShape JsObject := [].

Section Query.
Context {fmt : PgFormat} {A : Type} {shape : ArgumentShape A}.

(** The closure [execute]; [name], [query] and [accessors] are the
    constants captured from [query]. *)
Definition execute (conn : Client) (options : option QueryOptions)
    (name query : string) (accessors : list (Accessor A))
    (values : option A) : Promise GenericQueryResult :=
  let values := default emptyObject values in
  let mappedValues := map (fun accessor => accessor values) accessors in
  ret <- await conn {| name := name; text := query; values := mappedValues |} ;;
  match validator options with
  | Some validate =>
      checked <- await validateRows validate 0 (rows ret) ;;
      Resolved {| rows := checked |}
  | None => Resolved ret
  end.

(** [build.query(conn, options)]; [name] is the result of [uuid.v4()]. *)
Definition query (b : BuildMethod A) (conn : Client) (options : option QueryOptions)
    (name : string) : option A -> Promise GenericQueryResult :=
  let '(query, accessors) := staticPrepare (fragments b) 1 in
  execute conn options name query accessors.
End Query.

(** ** The argument shorthand [a] *)

(** The values [a] can be called with: a string key, a numeric key, the
    strings of a tagged template, or nothing at all ([undefined]). *)
Inductive ArgumentName : Type :=
| NameString (name : string)
| NameNumber (n : Z)
| NameStrings (strings : list string)
| NameUndefined.

(** [a(name)] *)
Definition a {proto : ObjectPrototype} (name : ArgumentName) : result (Fragment JsObject) :=
  match name with
  | NameString name => Return (ArgumentFragment (fun args => get args name))
  | NameStrings [name0] => Return (ArgumentFragment (fun args => get args name0))
  | _ => Throw (TypeError "Argument builder received invalid arguments")
  end.

(** ** The helpers [i] and [l] *)

(** [interface ToString]: a value with a [toString()] method. *)
Class ToString (T : Type) : Type := toString : T -> string.

#[export] Instance string_ToString : ToString string := fun s => s.

(** [baseTTL(strings, ...args)].  [join] writes nothing for an element that
    is [undefined], so a string missing from [strings] counts as empty. *)
Definition baseTTL {T : Type} `{ToString T} (strings : list string) (args : list T) : string :=
  String.concat ""
    (segment strings 0 ::
     flatMap (fun index arg => [toString arg; segment strings (index + 1)]) args).

(** What [i] can be called with: a name, or the strings of a template. *)
Inductive IdentifierInput : Type :=
| IdentString (name : string)
| IdentStrings (strings : list string).

(** What [l] can be called with: the strings of a template, which
    [isTemplateStringsArray] tells by their property [raw], or a value. *)
Inductive LiteralInput : Type :=
| LitStrings (strings : list string)
| LitValue (v : Value).

Module Helpers.

(** [i(strings, ...args)] *)
Definition i {T : Type} `{ToString T} {A : Type} (strings : IdentifierInput) (args : list T)
  : Fragment A :=
  match strings with
  | IdentString name => IdentifierFragment name
  | IdentStrings strings => IdentifierFragment (baseTTL strings args)
  end.

(** [l(strings, ...args)] *)
Definition l {T : Type} `{ToString T} {A : Type} (strings : LiteralInput) (args : list T)
  : Fragment A :=
  match strings with
  | LitStrings strings => LiteralFragment (VString (baseTTL strings args))
  | LitValue v => LiteralFragment v
  end.

End Helpers.

(** ** Trace forms *)

(** [JSON.stringify] belongs to the JavaScript runtime; [JSON_stringify v] is
    the text that [`${JSON.stringify(v)}`] interpolates. *)
Class JsRuntime : Type := { JSON_stringify : Value -> string }.

(** [accessor.toString()], the source text of a function, also comes from
    the runtime. *)
Class FunctionText (A : Type) : Type := function_toString : Accessor A -> string.

Section ToStringMethod.
Context {js : JsRuntime} {A : Type} {ft : FunctionText A}.

(** [fragment.toString()] *)
Fixpoint Fragment_toString (F : Fragment A) : string :=
  match F with
  | StringFragment text => text
  | ArgumentFragment accessor => "<ARG " +:+ function_toString accessor +:+ ">"
  | QueryFragment fragments =>
      String.concat "" (map (fun fragment => Fragment_toString fragment) fragments)
  | LiteralFragment value => "<LITERAL " +:+ JSON_stringify value +:+ ">"
  | IdentifierFragment name => "<IDENT " +:+ name +:+ ">"
  | ValueFragment value => "<VALUE " +:+ JSON_stringify value +:+ ">"
  end.
End ToStringMethod.

(** The trace form of an expression of a template, once [Fragment.from] has
    wrapped it. *)
Definition Source_toString {js : JsRuntime} {A : Type} {ft : FunctionText A}
  : ToString (Source A) :=
  fun arg => Fragment_toString (Fragment_from arg).

(** ** The edition of [src/index.ts] *)

(** [if (x)] tests whether [x] is truthy: [undefined], [null], [0], [NaN],
    the empty string and [false] are not, every object is. *)
Class ToBoolean (A : Type) : Type := truthy : A -> bool.

#[export] Instance JsObject_truthy : ToBoolean JsObject := fun _ => true.

Module Index.

(** [abstract class Fragment<A>] with its five subclasses. *)
Inductive Fragment (A : Type) : Type :=
| StringFragment (text : string)
| ArgumentFragment (accessor : Accessor A)
| QueryFragment (fragments : list (Fragment A))
| LiteralFragment (value : Value)
| IdentifierFragment (name : string).
Arguments StringFragment {A} text.
Arguments ArgumentFragment {A} accessor.
Arguments QueryFragment {A} fragments.
Arguments LiteralFragment {A} value.
Arguments IdentifierFragment {A} name.

(** [fragment.map(mapper)] *)
Fixpoint Fragment_map {I A : Type} (mapper : Mapper I A) (F : Fragment A) : Fragment I :=
  match F with
  | StringFragment text => StringFragment text
  | ArgumentFragment accessor =>
      ArgumentFragment (fun values => accessor (mapper values))
  | QueryFragment fragments =>
      QueryFragment (map (fun fragment => Fragment_map mapper fragment) fragments)
  | LiteralFragment value => LiteralFragment value
  | IdentifierFragment name => IdentifierFragment name
  end.

Definition PrepareState (A : Type) : Type := (list string * list (Accessor A))%type.

(** The body of the [forEach] of [staticPrepare].  [queryStrings] is
    extended in place; [accessors.concat(fragmentAccessors)] builds a new
    array, which is dropped, and leaves [accessors] as it was. *)
Definition prepareStep {A : Type}
    (prep : Fragment A -> nat -> string * list (Accessor A))
    (argOffset : nat) (st : PrepareState A) (fragment : Fragment A) : PrepareState A :=
  let '(queryStrings, accessors) := st in
  let '(fragmentString, fragmentAccessors) :=
    prep fragment (argOffset + length accessors) in
  let _ := accessors ++ fragmentAccessors in
  (queryStrings ++ [fragmentString], accessors).

Definition staticPrepareWith {A : Type}
    (prep : Fragment A -> nat -> string * list (Accessor A))
    (fragments : list (Fragment A)) (argOffset : nat) : string * list (Accessor A) :=
  let '(queryStrings, accessors) :=
    fold_left (prepareStep prep argOffset) fragments ([], []) in
  (String.concat "" queryStrings, accessors).

Section Prepare.
Context {fmt : PgFormat} {A : Type}.

(** [fragment.prepare(argOffset)] *)
Fixpoint prepare (F : Fragment A) (argOffset : nat) : string * list (Accessor A) :=
  match F with
  | StringFragment text => (format_string text, [])
  | ArgumentFragment accessor => ("$" +:+ decimal argOffset, [accessor])
  | QueryFragment fragments => staticPrepareWith prepare fragments argOffset
  | LiteralFragment value => (format_literal value, [])
  | IdentifierFragment name => (format_ident name, [])
  end.

(** [QueryFragment.staticPrepare(fragments, argOffset)] *)
Definition staticPrepare (fragments : list (Fragment A)) (argOffset : nat)
  : string * list (Accessor A) :=
  staticPrepareWith prepare fragments argOffset.
End Prepare.

Record BuildMethod (A : Type) : Type := { fragments : list (Fragment A) }.
Arguments fragments {A} b.

(** [build()] *)
Definition build {A : Type} (b : BuildMethod A) : Fragment A :=
  QueryFragment (fragments b).

(** [build(mapper)] *)
Definition build_mapped {I A : Type} (b : BuildMethod A) (mapper : Mapper I A) : Fragment I :=
  QueryFragment (map (fun fragment => Fragment_map mapper fragment) (fragments b)).

Inductive Source (A : Type) : Type :=
| SrcFragment (F : Fragment A)
| SrcBuild (b : BuildMethod A)
| SrcAccessor (f : Accessor A)
| SrcValue (v : Value).
Arguments SrcFragment {A} F.
Arguments SrcBuild {A} b.
Arguments SrcAccessor {A} f.
Arguments SrcValue {A} v.

(** [Fragment.from(source)]; a plain value is wrapped in a constant
    accessor. *)
Definition Fragment_from {A : Type} (source : Source A) : Fragment A :=
  match source with
  | SrcFragment F => F
  | SrcBuild b => build b
  | SrcAccessor f => ArgumentFragment f
  | SrcValue v => ArgumentFragment (fun _ => v)
  end.

Definition sql_fragments {A : Type} (strings : list string) (args : list (Source A))
  : list (Fragment A) :=
  StringFragment (segment strings 0) ::
  flatMap (fun index arg =>
             [Fragment_from arg; StringFragment (segment strings (index + 1))]) args.

(** [sql(strings, ...args)] *)
Definition sql {A : Type} (strings : list string) (args : list (Source A)) : BuildMethod A :=
  {| fragments := sql_fragments strings args |}.

(** [query] either runs the statement at once (when [values] is truthy) or
    returns the closure [execute]. *)
Inductive QueryReturn (A : Type) : Type :=
| Executed (p : Promise GenericQueryResult)
| Execute (execute : A -> Promise GenericQueryResult).
Arguments Executed {A} p.
Arguments Execute {A} execute.

Section Query.
Context {fmt : PgFormat} {A : Type} {tb : ToBoolean A}.

Definition execute (conn : Client) (name query : string)
    (accessors : list (Accessor A)) (values : A) : Promise GenericQueryResult :=
  let mappedValues := map (fun accessor => accessor values) accessors in
  ret <- await conn {| name := name; text := query; values := mappedValues |} ;;
  Resolved ret.

(** [build.query(conn, values)]; [name] is the result of [uuid.v4()].
    [values] is [None] when the parameter is left out. *)
Definition query (b : BuildMethod A) (conn : Client) (values : option A)
    (name : string) : QueryReturn A :=
  let '(query, accessors) := staticPrepare (fragments b) 0 in
  match values with
  | Some values =>
      if truthy values
      then Executed (execute conn name query accessors values)
      else Execute (execute conn name query accessors)
  | None => Execute (execute conn name query accessors)
  end.
End Query.

Section ToStringMethod.
Context {js : JsRuntime} {A : Type}.

(** [fragment.toString()] *)
Fixpoint Fragment_toString (F : Fragment A) : string :=
  match F with
  | StringFragment text => text
  | ArgumentFragment _ => "<ARG>"
  | QueryFragment fragments =>
      String.concat "" (map (fun fragment => Fragment_toString fragment) fragments)
  | LiteralFragment value => "<VALUE " +:+ JSON_stringify value +:+ ">"
  | IdentifierFragment name => "<IDENT " +:+ name +:+ ">"
  end.
End ToStringMethod.

End Index.

(** ** Fragment objects in a store *)

(** [Fragment.from] and [sql] once more, with the fragment objects kept in a
    store and known by reference, so that returning an object can be told
    from building a new one.  [new] appends a cell; nothing in the library
    writes to an existing cell. *)
Module Heap.

Definition ref : Type := nat.

(** A fragment object; a [QueryFragment] holds the references of its
    children. *)
Inductive FragmentObject (A : Type) : Type :=
| StringFragment (text : string)
| ArgumentFragment (accessor : Accessor A)
| QueryFragment (fragments : list ref)
| LiteralFragment (value : Value)
| IdentifierFragment (name : string)
| ValueFragment (value : Value).
Arguments StringFragment {A} text.
Arguments ArgumentFragment {A} accessor.
Arguments QueryFragment {A} fragments.
Arguments LiteralFragment {A} value.
Arguments IdentifierFragment {A} name.
Arguments ValueFragment {A} value.

Definition Store (A : Type) : Type := list (FragmentObject A).

(** [new C(...)] *)
Definition new {A : Type} (obj : FragmentObject A) (st : Store A) : ref * Store A :=
  (length st, st ++ [obj]).

(** A build method closes over its [fragments] array. *)
Record BuildMethod : Type := { fragments : list ref }.

Inductive Source (A : Type) : Type :=
| SrcFragment (r : ref)
| SrcBuild (b : BuildMethod)
| SrcAccessor (f : Accessor A)
| SrcValue (v : Value).
Arguments SrcFragment {A} r.
Arguments SrcBuild {A} b.
Arguments SrcAccessor {A} f.
Arguments SrcValue {A} v.

(** [Fragment.from(source)], edition of the test-suite. *)
Definition Fragment_from {A : Type} (source : Source A) (st : Store A) : ref * Store A :=
  match source with
  | SrcFragment r => (r, st)
  | SrcBuild b => new (QueryFragment (fragments b)) st
  | SrcAccessor f => new (ArgumentFragment f) st
  | SrcValue v => new (ValueFragment v) st
  end.

(** [Fragment.from(source)], edition of [src/index.ts]. *)
Definition Index_Fragment_from {A : Type} (source : Source A) (st : Store A)
  : ref * Store A :=
  match source with
  | SrcFragment r => (r, st)
  | SrcBuild b => new (QueryFragment (fragments b)) st
  | SrcAccessor f => new (ArgumentFragment f) st
  | SrcValue v => new (ArgumentFragment (fun _ => v)) st
  end.

(** One round of the [flatMap] callback of [sql]: the references collected
    so far, the store, and the index of the next expression. *)
Definition embed {A : Type} (from : Source A -> Store A -> ref * Store A)
    (strings : list string) (acc : list ref * Store A * nat) (arg : Source A)
  : list ref * Store A * nat :=
  let '(refs, st, index) := acc in
  let '(r, st) := from arg st in
  let '(s, st) := new (StringFragment (segment strings (index + 1))) st in
  (refs ++ [r; s], st, S index).

(** The [fragments] array built by [sql]. *)
Definition sql_fragments {A : Type} (from : Source A -> Store A -> ref * Store A)
    (strings : list string) (args : list (Source A)) (st : Store A)
  : list ref * Store A :=
  let '(s0, st) := new (StringFragment (segment strings 0)) st in
  let '(refs, st, _) := fold_left (embed from strings) args ([s0], st, 0) in
  (refs, st).

(** [sql(strings, ...args)] *)
Definition sql {A : Type} (from : Source A -> Store A -> ref * Store A)
    (strings : list string) (args : list (Source A)) (st : Store A)
  : BuildMethod * Store A :=
  let '(refs, st) := sql_fragments from strings args st in
  ({| fragments := refs |}, st).

End Heap.

(** ** Reading a prepared statement *)

(** What follows is not code of the library.  It says what a prepared
    statement is meant to be, the flattened fragment tree with its slots
    numbered from the offset on, so that [prepare] can be compared with it. *)

(** The flattened fragment tree, left to right: SQL text that is sent as it
    is, and slots that are bound to a value when the statement runs. *)
Inductive Item (A : Type) : Type :=
| Verbatim (sqlText : string)
| Slot (accessor : Accessor A).
Arguments Verbatim {A} sqlText.
Arguments Slot {A} accessor.

Section Skeleton.
Context {fmt : PgFormat} {A : Type}.

Fixpoint skeleton (F : Fragment A) : list (Item A) :=
  match F with
  | StringFragment text => [Verbatim (format_string text)]
  | ArgumentFragment accessor => [Slot accessor]
  | QueryFragment fragments => flat_map skeleton fragments
  | LiteralFragment value => [Verbatim (format_literal value)]
  | IdentifierFragment name => [Verbatim (format_ident name)]
  | ValueFragment value => [Slot (fun _ => value)]
  end.
End Skeleton.

(** A piece of statement text: SQL text, or the placeholder [$n] together
    with the accessor of the slot it stands for. *)
Inductive Piece (A : Type) : Type :=
| Raw (sqlText : string)
| Placeholder (n : nat) (accessor : Accessor A).
Arguments Raw {A} sqlText.
Arguments Placeholder {A} n accessor.

(** Number the slots from [offset] on, left to right. *)
Fixpoint layout {A : Type} (offset : nat) (items : list (Item A)) : list (Piece A) :=
  match items with
  | [] => []
  | Verbatim s :: rest => Raw s :: layout offset rest
  | Slot accessor :: rest => Placeholder offset accessor :: layout (S offset) rest
  end.

Definition render_piece {A : Type} (p : Piece A) : string :=
  match p with
  | Raw s => s
  | Placeholder n _ => "$" +:+ decimal n
  end.

(** The statement text spelled by a list of pieces. *)
Definition render {A : Type} (pieces : list (Piece A)) : string :=
  String.concat "" (map render_piece pieces).

(** The placeholders of a list of pieces, in order of appearance, each with
    its accessor. *)
Fixpoint placeholders {A : Type} (pieces : list (Piece A)) : list (nat * Accessor A) :=
  match pieces with
  | [] => []
  | Raw _ :: rest => placeholders rest
  | Placeholder n accessor :: rest => (n, accessor) :: placeholders rest
  end.

(** Move every placeholder number by [d]. *)
Definition shift {A : Type} (d : Z) (p : Piece A) : Piece A :=
  match p with
  | Raw s => Raw s
  | Placeholder n accessor => Placeholder (Z.to_nat (Z.of_nat n + d)) accessor
  end.

(** The bind values a list of accessors yields for an argument. *)
Definition bindValues {A : Type} (accessors : list (Accessor A)) (values : A) : list Value :=
  map (fun accessor => accessor values) accessors.

(** The accessors of the slots, in order. *)
Fixpoint slots {A : Type} (items : list (Item A)) : list (Accessor A) :=
  match items with
  | [] => []
  | Verbatim _ :: rest => slots rest
  | Slot accessor :: rest => accessor :: slots rest
  end.

(** ** Placeholder markers in a statement text *)

(** Reading the markers back from a text, as the server does; not code of
    the library either. *)

(** The value of a decimal digit: the characters with codes 48 to 57. *)
Definition digit (c : ascii) : option nat :=
  let code := nat_of_ascii c in
  if ((48 <=? code)%nat && (code <=? 57)%nat)%bool then Some (code - 48) else None.

(** The scanner has seen nothing of a marker, a dollar sign, or a dollar
    sign and digits that spell [n] so far. *)
Inductive Scan : Type :=
| Idle
| Dollar
| Number (n : nat).

Definition restart (c : ascii) : Scan :=
  if Ascii.eqb c "$" then Dollar else Idle.

(** The markers [$n] of a text, from left to right: a dollar sign followed
    by the longest run of digits. *)
Fixpoint scan (state : Scan) (text : string) : list nat :=
  match text with
  | EmptyString =>
      match state with
      | Number n => [n]
      | _ => []
      end
  | String c rest =>
      match state, digit c with
      | Number n, Some d => scan (Number (10 * n + d)) rest
      | Number n, None => n :: scan (restart c) rest
      | Dollar, Some d => scan (Number d) rest
      | _, _ => scan (restart c) rest
      end
  end.

Definition markers (text : string) : list nat := scan Idle text.

Fixpoint no_dollar (s : string) : bool :=
  match s with
  | EmptyString => true
  | String c rest => negb (Ascii.eqb c "$") && no_dollar rest
  end.

(** SQL text that cannot be read as part of a marker: it holds no dollar
    sign and does not begin with a digit. *)
Definition clean (s : string) : bool :=
  no_dollar s &&
  match s with
  | EmptyString => true
  | String c _ => match digit c with Some _ => false | None => true end
  end.

Definition clean_piece {A : Type} (p : Piece A) : bool :=
  match p with
  | Raw s => clean s
  | Placeholder _ _ => true
  end.

Definition clean_item {A : Type} (item : Item A) : bool :=
  match item with
  | Verbatim s => clean s
  | Slot _ => true
  end.

(** What a fragment contributes when it is prepared at any offset: the text
    of its layout and the accessors of its slots. *)
Definition LaidOut {fmt : PgFormat} {A : Type}
    (prep : Fragment A -> nat -> string * list (Accessor A)) (F : Fragment A) : Prop :=
  forall offset, prep F offset = (render (layout offset (skeleton F)), slots (skeleton F)).

(** What the two editions of [Fragment.from] have in common: a fragment is
    returned as it is, and the store only grows. *)
Definition ReturnsFragments {A : Type}
    (from : Heap.Source A -> Heap.Store A -> Heap.ref * Heap.Store A) : Prop :=
  (forall r st, from (Heap.SrcFragment r) st = (r, st)) /\
  (forall source st, st `prefix_of` snd (from source st)).

(** ** Sample data *)

(** A connection that answers with one row, holding the statement it was
    sent. *)
Definition echo : Client :=
  fun config =>
    Resolved {| rows := [[("text", VString (text config));
                          ("values", VArray (values config))]] |}.

(** A template with a value and an accessor among clean SQL text. *)
Definition sample_builder : BuildMethod JsObject :=
  sql ["SELECT * FROM t WHERE a = "; " AND b = "; ""]
      [SrcValue (VNumber 1);
       SrcAccessor (fun args => get (proto := bare_prototype) args "b")].

(** Scenario 6: a predicate that rejects row 1 of a result of two rows. *)
Definition two_rows : GenericQueryResult :=
  {| rows := [[("id", VNumber 1)]; [("id", VNull)]] |}.

Definition id_is_number (row : QueryResultRow) : bool :=
  match get (proto := bare_prototype) row "id" with
  | VNumber _ => true
  | _ => false
  end.

(** ** Induction over fragment trees *)

Section FragmentInduction.
Context {A : Type} (P : Fragment A -> Prop).
Hypothesis HString : forall text, P (StringFragment text).
Hypothesis HArgument : forall accessor, P (ArgumentFragment accessor).
Hypothesis HQuery : forall fragments, Forall P fragments -> P (QueryFragment fragments).
Hypothesis HLiteral : forall value, P (LiteralFragment value).
Hypothesis HIdentifier : forall name, P (IdentifierFragment name).
Hypothesis HValue : forall value, P (ValueFragment value).

Fixpoint Fragment_tree_ind (F : Fragment A) : P F :=
  match F with
  | StringFragment text => HString text
  | ArgumentFragment accessor => HArgument accessor
  | QueryFragment fragments =>
      HQuery fragments
        ((fix children (l : list (Fragment A)) : Forall P l :=
            match l with
            | [] => List.Forall_nil P
            | F' :: l' => List.Forall_cons P F' l' (Fragment_tree_ind F') (children l')
            end) fragments)
  | LiteralFragment value => HLiteral value
  | IdentifierFragment name => HIdentifier name
  | ValueFragment value => HValue value
  end.
End FragmentInduction.

Section IndexFragmentInduction.
Context {A : Type} (P : Index.Fragment A -> Prop).
Hypothesis HString : forall text, P (Index.StringFragment text).
Hypothesis HArgument : forall accessor, P (Index.ArgumentFragment accessor).
Hypothesis HQuery : forall fragments, Forall P fragments -> P (Index.QueryFragment fragments).
Hypothesis HLiteral : forall value, P (Index.LiteralFragment value).
Hypothesis HIdentifier : forall name, P (Index.IdentifierFragment name).

Fixpoint Index_Fragment_tree_ind (F : Index.Fragment A) : P F :=
  match F with
  | Index.StringFragment text => HString text
  | Index.ArgumentFragment accessor => HArgument accessor
  | Index.QueryFragment fragments =>
      HQuery fragments
        ((fix children (l : list (Index.Fragment A)) : Forall P l :=
            match l with
            | [] => List.Forall_nil P
            | F' :: l' =>
                List.Forall_cons P F' l' (Index_Fragment_tree_ind F') (children l')
            end) fragments)
  | Index.LiteralFragment value => HLiteral value
  | Index.IdentifierFragment name => HIdentifier name
  end.
End IndexFragmentInduction.

(** * Properties *)

(** ** Strings and lists *)

Lemma append_String (c : ascii) (s1 s2 : string) :
  String c s1 +:+ s2 = String c (s1 +:+ s2).
Proof. reflexivity. Qed.

Lemma append_empty_r (s : string) : s +:+ "" = s.
Proof. induction s as [|c s IH]; [done | by rewrite append_String, IH]. Qed.

Lemma append_assoc (s1 s2 s3 : string) : (s1 +:+ s2) +:+ s3 = s1 +:+ (s2 +:+ s3).
Proof. induction s1 as [|c s1 IH]; [done | by rewrite !append_String, IH]. Qed.

Lemma join_cons (s : string) (l : list string) :
  String.concat "" (s :: l) = s +:+ String.concat "" l.
Proof. destruct l; [symmetry; apply append_empty_r | done]. Qed.

Lemma join_app (l1 l2 : list string) :
  String.concat "" (l1 ++ l2) = String.concat "" l1 +:+ String.concat "" l2.
Proof.
  induction l1 as [|s l1 IH]; [done |].
  rewrite <- app_comm_cons, !join_cons, IH. by rewrite append_assoc.
Qed.

Lemma join_singleton (s : string) : String.concat "" [s] = s.
Proof. done. Qed.

(** ** Layouts *)

Section LayoutFacts.
Context {A : Type}.
Implicit Types (items : list (Item A)) (pieces : list (Piece A)).

Lemma slots_app items1 items2 : slots (items1 ++ items2) = slots items1 ++ slots items2.
Proof.
  induction items1 as [|[s|acc] items1 IH]; simpl; [done | done | by rewrite IH].
Qed.

Lemma layout_app offset items1 items2 :
  layout offset (items1 ++ items2) =
  layout offset items1 ++ layout (offset + length (slots items1)) items2.
Proof.
  revert offset. induction items1 as [|[s|acc] items1 IH]; intros offset; simpl.
  - by rewrite Nat.add_0_r.
  - by rewrite IH.
  - rewrite IH. do 3 f_equal. lia.
Qed.

Lemma render_app pieces1 pieces2 :
  render (pieces1 ++ pieces2) = render pieces1 +:+ render pieces2.
Proof. unfold render. by rewrite map_app, join_app. Qed.

Lemma render_cons (p : Piece A) pieces :
  render (p :: pieces) = render_piece p +:+ render pieces.
Proof. unfold render. rewrite map_cons. apply join_cons. Qed.

Lemma placeholders_app pieces1 pieces2 :
  placeholders (pieces1 ++ pieces2) = placeholders pieces1 ++ placeholders pieces2.
Proof.
  induction pieces1 as [|[s|n acc] pieces1 IH]; simpl; [done | done | by rewrite IH].
Qed.

(** The placeholders of a layout are numbered [offset], [offset + 1], ...
    and the k-th one carries the k-th slot's accessor. *)
Lemma placeholders_layout offset items :
  placeholders (layout offset items) =
  zip (seq offset (length (slots items))) (slots items).
Proof.
  revert offset. induction items as [|[s|acc] items IH]; intros offset; simpl.
  - done.
  - apply IH.
  - by rewrite IH.
Qed.

Lemma layout_shift offset1 offset2 items :
  layout offset2 items =
  map (shift (Z.of_nat offset2 - Z.of_nat offset1)) (layout offset1 items).
Proof.
  revert offset1 offset2.
  induction items as [|[s|acc] items IH]; intros offset1 offset2; simpl.
  - done.
  - by rewrite (IH offset1 offset2).
  - rewrite (IH (S offset1) (S offset2)). f_equal; [f_equal; lia |].
    f_equal. f_equal. lia.
Qed.
End LayoutFacts.

(** ** [prepare] lays the flattened tree out from the offset *)

Section PrepareFacts.
Context {fmt : PgFormat} {A : Type}.
Implicit Types (F : Fragment A) (fragments : list (Fragment A)).

Lemma prepareStep_fold prep fragments :
  Forall (LaidOut prep) fragments ->
  forall argOffset queryStrings accessors,
  exists queryStrings',
    fold_left (prepareStep prep argOffset) fragments (queryStrings, accessors) =
      (queryStrings', accessors ++ slots (flat_map skeleton fragments)) /\
    String.concat "" queryStrings' =
      String.concat "" queryStrings +:+
      render (layout (argOffset + length accessors) (flat_map skeleton fragments)).
Proof.
  induction 1 as [|F fragments HF _ IH]; intros argOffset queryStrings accessors.
  - exists queryStrings. simpl. split.
    + by rewrite app_nil_r.
    + by rewrite append_empty_r.
  - simpl. rewrite (HF (argOffset + length accessors)).
    destruct (IH argOffset (queryStrings ++ [render (layout (argOffset + length accessors) (skeleton F))])
                (accessors ++ slots (skeleton F))) as (queryStrings' & Hfold & Hjoin).
    exists queryStrings'. split.
    + rewrite Hfold. by rewrite slots_app, app_assoc.
    + rewrite Hjoin, join_app, join_singleton, layout_app, render_app.
      rewrite length_app, Nat.add_assoc. by rewrite append_assoc.
Qed.

Lemma staticPrepareWith_layout prep fragments argOffset :
  Forall (LaidOut prep) fragments ->
  staticPrepareWith prep fragments argOffset =
    (render (layout argOffset (flat_map skeleton fragments)),
     slots (flat_map skeleton fragments)).
Proof.
  intros Hall. unfold staticPrepareWith.
  destruct (prepareStep_fold prep fragments Hall argOffset [] [])
    as (queryStrings' & -> & Hjoin).
  rewrite Hjoin. simpl. by rewrite Nat.add_0_r.
Qed.

(** [prepare] returns the text of the layout of the flattened tree and the
    accessors of its slots. *)
Theorem prepare_layout F argOffset :
  prepare F argOffset =
    (render (layout argOffset (skeleton F)), slots (skeleton F)).
Proof.
  revert argOffset. induction F as [text|accessor|fragments IH|value|name|value]
    using Fragment_tree_ind; intros argOffset; try reflexivity.
  simpl. by apply staticPrepareWith_layout.
Qed.

Theorem staticPrepare_layout fragments argOffset :
  staticPrepare fragments argOffset =
    (render (layout argOffset (flat_map skeleton fragments)),
     slots (flat_map skeleton fragments)).
Proof.
  apply staticPrepareWith_layout, Forall_forall. intros F _ offset. apply prepare_layout.
Qed.

(** X1.  The invariant of [prepare], edition of the test-suite: the text is
    spelled by pieces whose placeholders are exactly as many as the
    accessors, are numbered [argOffset], [argOffset + 1], ... from left to
    right, and the k-th placeholder stands for the k-th accessor. *)
Theorem prepare_placeholders F argOffset :
  let '(text, accessors) := prepare F argOffset in
  let pieces := layout argOffset (skeleton F) in
  text = render pieces /\
  placeholders pieces = zip (seq argOffset (length accessors)) accessors /\
  length (placeholders pieces) = length accessors.
Proof.
  rewrite prepare_layout. simpl. split; [done |].
  rewrite placeholders_layout. split; [done |].
  rewrite length_zip_with, length_seq. lia.
Qed.

(** The same for the children of a sequence. *)
Theorem staticPrepare_placeholders fragments argOffset :
  let '(text, accessors) := staticPrepare fragments argOffset in
  let pieces := layout argOffset (flat_map skeleton fragments) in
  text = render pieces /\
  placeholders pieces = zip (seq argOffset (length accessors)) accessors /\
  length (placeholders pieces) = length accessors.
Proof.
  rewrite staticPrepare_layout. simpl. split; [done |].
  rewrite placeholders_layout. split; [done |].
  rewrite length_zip_with, length_seq. lia.
Qed.

(** C3.  Preparing a fragment at offset [o2] instead of [o1] yields the
    text of [o1] with every placeholder number moved by [o2 - o1]; the two
    accessor lists are the same list, so they have the same length and
    yield the same values for the same argument. *)
Theorem prepare_offset_shift F (o1 o2 : nat) :
  let pieces := layout o1 (skeleton F) in
  fst (prepare F o1) = render pieces /\
  fst (prepare F o2) = render (map (shift (Z.of_nat o2 - Z.of_nat o1)) pieces) /\
  length (snd (prepare F o1)) = length (snd (prepare F o2)) /\
  (forall values : A,
      bindValues (snd (prepare F o1)) values = bindValues (snd (prepare F o2)) values).
Proof.
  rewrite !prepare_layout. simpl. split; [done |].
  split; [by rewrite <- layout_shift |]. done.
Qed.
End PrepareFacts.

(** ** Markers of a rendered text *)

(** Evaluate [digit] at the character under scrutiny. *)
Ltac eval_digit :=
  match goal with
  | |- context [digit ?c] =>
      let d := eval vm_compute in (digit c) in change (digit c) with d
  end.

Lemma scan_digits (u : Decimal.uint) (acc : nat) (rest : string) :
  scan (Number acc) (NilEmpty.string_of_uint u +:+ rest) =
    scan (Number (Nat.of_uint_acc u acc)) rest.
Proof.
  revert acc. induction u as [|u IH|u IH|u IH|u IH|u IH|u IH|u IH|u IH|u IH|u IH];
    intros acc; [done | ..];
    cbn [NilEmpty.string_of_uint Nat.of_uint_acc]; rewrite append_String;
    cbn [scan]; eval_digit; cbv iota; rewrite IH, Nat.tail_mul_spec; do 3 f_equal; lia.
Qed.

Lemma to_uint_not_Nil (n : nat) : Nat.to_uint n <> Decimal.Nil.
Proof.
  intros H. pose proof (DecimalNat.Unsigned.of_to n) as Hn. rewrite H in Hn.
  simpl in Hn. subst n. discriminate H.
Qed.

Lemma scan_Dollar_decimal (n : nat) (rest : string) :
  scan Dollar (decimal n +:+ rest) = scan (Number n) rest.
Proof.
  unfold decimal. pose proof (DecimalNat.Unsigned.of_to n) as Hn.
  pose proof (to_uint_not_Nil n) as Hnil.
  destruct (Nat.to_uint n) as [|u|u|u|u|u|u|u|u|u|u]; [done | ..];
    cbn [NilEmpty.string_of_uint]; rewrite append_String; cbn [scan]; eval_digit;
    cbv iota; rewrite scan_digits; do 2 f_equal; exact Hn.
Qed.

Lemma scan_no_dollar (s rest : string) :
  no_dollar s = true -> scan Idle (s +:+ rest) = scan Idle rest.
Proof.
  induction s as [|c s IH]; [done |]. simpl. intros [Hc Hs]%andb_prop.
  unfold restart. destruct (Ascii.eqb c "$"); [done |]. by apply IH.
Qed.

Lemma scan_Number_clean (n : nat) (c : ascii) (s rest : string) :
  clean (String c s) = true ->
  scan (Number n) (String c s +:+ rest) = n :: scan Idle rest.
Proof.
  unfold clean. cbn [no_dollar]. intros [[Hc Hs]%andb_prop Hd]%andb_prop.
  rewrite append_String. cbn [scan]. destruct (digit c); [done |].
  unfold restart. destruct (Ascii.eqb c "$"); [done |]. by rewrite scan_no_dollar.
Qed.

Lemma scan_Idle_dollar (rest : string) : scan Idle (String "$" rest) = scan Dollar rest.
Proof. reflexivity. Qed.

Lemma scan_Number_dollar (n : nat) (rest : string) :
  scan (Number n) (String "$" rest) = n :: scan Dollar rest.
Proof. reflexivity. Qed.

Section Markers.
Context {A : Type}.
Implicit Types (pieces : list (Piece A)) (items : list (Item A)).

Lemma scan_render pieces :
  forallb clean_piece pieces = true ->
  scan Idle (render pieces) = (placeholders pieces).*1 /\
  forall n, scan (Number n) (render pieces) = n :: (placeholders pieces).*1.
Proof.
  induction pieces as [|[s|m accessor] pieces IH]; [done | |].
  - simpl. intros [Hs Hpieces]%andb_prop. destruct (IH Hpieces) as [IH1 IH2].
    rewrite render_cons. simpl. split.
    + rewrite scan_no_dollar; [done |]. by apply andb_prop in Hs as [? _].
    + intros n. destruct s as [|c s]; [apply IH2 |].
      by rewrite scan_Number_clean, IH1.
  - simpl. intros Hpieces. destruct (IH Hpieces) as [IH1 IH2].
    rewrite render_cons. cbn [render_piece]. rewrite append_assoc.
    change ("$" +:+ ?x) with (String "$" x). split.
    + by rewrite scan_Idle_dollar, scan_Dollar_decimal, IH2.
    + intros n. by rewrite scan_Number_dollar, scan_Dollar_decimal, IH2.
Qed.

(** Scanning the text of clean pieces finds their placeholders. *)
Theorem markers_render pieces :
  forallb clean_piece pieces = true ->
  markers (render pieces) = (placeholders pieces).*1.
Proof. intros H. by apply scan_render. Qed.

Lemma clean_layout offset items :
  forallb clean_piece (layout offset items) = forallb clean_item items.
Proof.
  revert offset. induction items as [|[s|accessor] items IH]; intros offset; simpl;
    [done | by rewrite IH | apply IH].
Qed.
End Markers.

Section PreparedMarkers.
Context {fmt : PgFormat} {A : Type}.

(** X2.  The invariant read off the text: when the SQL text of a fragment is
    clean, the markers found in its prepared text are [argOffset],
    [argOffset + 1], ..., one for each accessor. *)
Theorem prepare_markers (F : Fragment A) (argOffset : nat) :
  forallb clean_item (skeleton F) = true ->
  markers (fst (prepare F argOffset)) =
    seq argOffset (length (snd (prepare F argOffset))).
Proof.
  intros Hclean. rewrite prepare_layout. simpl.
  rewrite markers_render by (by rewrite clean_layout).
  rewrite placeholders_layout. apply fst_zip. by rewrite length_seq.
Qed.
End PreparedMarkers.

(** ** Sequences compose *)

Lemma await_Resolved {T : Type} (p : Promise T) : (v <- await p ;; Resolved v) = p.
Proof. by destruct p. Qed.

Section Nesting.
Context {fmt : PgFormat} {A : Type}.
Implicit Types (F X : Fragment A) (before after : list (Fragment A)).

(** A fragment [X] that occurs in a sequence after [before] is prepared at
    the offset moved by the accessors of [before]; what follows it is
    prepared at the offset moved further by the accessors of [X]. *)
Lemma staticPrepare_nested before X after argOffset :
  staticPrepare (before ++ X :: after) argOffset =
    let '(text1, accessors1) := staticPrepare before argOffset in
    let '(text2, accessors2) := prepare X (argOffset + length accessors1) in
    let '(text3, accessors3) :=
      staticPrepare after (argOffset + length accessors1 + length accessors2) in
    (text1 +:+ text2 +:+ text3, accessors1 ++ accessors2 ++ accessors3).
Proof.
  rewrite !staticPrepare_layout, prepare_layout.
  rewrite flat_map_app. simpl.
  rewrite !layout_app, !render_app, !slots_app.
  by rewrite staticPrepare_layout.
Qed.
End Nesting.

Section Scenarios.
Context {fmt : PgFormat} {A : Type} {shape : ArgumentShape A}.

(** C2.  A sub-builder embedded in a template is numbered from the place
    where it occurs, and the placeholders after it move by the number of
    its placeholders; scenarios 3 and 4 of the test-suite. *)
Theorem nested_builder_renumbered (Hfmt : StringVerbatim fmt)
    (conn : Client) (name : string) :
  (forall (sub : BuildMethod A) (before after : list (Fragment A)) (argOffset : nat),
      staticPrepare (before ++ Fragment_from (SrcBuild sub) :: after) argOffset =
        let '(text1, accessors1) := staticPrepare before argOffset in
        let '(text2, accessors2) :=
          staticPrepare (fragments sub) (argOffset + length accessors1) in
        let '(text3, accessors3) :=
          staticPrepare after (argOffset + length accessors1 + length accessors2) in
        (text1 +:+ text2 +:+ text3, accessors1 ++ accessors2 ++ accessors3)) /\
  let inner : BuildMethod A :=
    sql ["INNER "; " "; ""] [SrcValue (VNumber 1); SrcValue (VNumber 2)] in
  query (sql ["OUTER ("; ") "; ""] [SrcBuild inner; SrcValue (VNumber 3)])
        conn None name None =
    conn {| name := name; text := "OUTER (INNER $1 $2) $3";
            values := [VNumber 1; VNumber 2; VNumber 3] |} /\
  query (sql ["OUTER "; " ("; ")"] [SrcValue (VNumber 3); SrcBuild inner])
        conn None name None =
    conn {| name := name; text := "OUTER $1 (INNER $2 $3)";
            values := [VNumber 3; VNumber 1; VNumber 2] |}.
Proof.
  split.
  - intros sub before after argOffset. by rewrite staticPrepare_nested.
  - intros inner. split.
    + unfold query. rewrite staticPrepare_layout. cbn. rewrite !Hfmt.
      unfold execute. cbn. by rewrite await_Resolved.
    + unfold query. rewrite staticPrepare_layout. cbn. rewrite !Hfmt.
      unfold execute. cbn. by rewrite await_Resolved.
Qed.
End Scenarios.

Lemma nested_builder_renumbered_witness :
  StringVerbatim sample_format /\
  query (fmt := sample_format)
        (sql ["OUTER ("; ") "; ""]
             [SrcBuild (sql (A := JsObject) ["INNER "; " "; ""]
                            [SrcValue (VNumber 1); SrcValue (VNumber 2)]);
              SrcValue (VNumber 3)])
        echo None "q1" None =
    Resolved {| rows := [[("text", VString "OUTER (INNER $1 $2) $3");
                          ("values", VArray [VNumber 1; VNumber 2; VNumber 3])]] |}.
Proof.
  assert (H : StringVerbatim sample_format) by (intros s; reflexivity).
  split; [exact H |].
  destruct (nested_builder_renumbered (fmt := sample_format) (A := JsObject) H echo "q1")
    as [_ [Hq _]].
  exact Hq.
Defined.

(** ** Remapping *)

Section Remap.
Context {fmt : PgFormat}.

(** Remapping twice builds the same tree as remapping once by the composed
    mapper. *)
Lemma Fragment_map_map {I J A : Type} (g : Mapper I J) (h : Mapper J A) (F : Fragment A) :
  Fragment_map g (Fragment_map h F) = Fragment_map (fun values => h (g values)) F.
Proof.
  induction F as [text|accessor|fragments IH|value|name|value]
    using Fragment_tree_ind; try reflexivity.
  simpl. f_equal. rewrite map_map.
  induction IH as [|F fragments HF _ IHfragments]; [done |].
  simpl. by rewrite HF, IHfragments.
Qed.

(** C4.  Remapping by [h] and then by [g] behaves as one remapping by the
    composition: at every offset the same text is rendered, and for every
    argument the same values are bound. *)
Theorem map_composition {I J A : Type} (g : Mapper I J) (h : Mapper J A)
    (F : Fragment A) (argOffset : nat) (values : I) :
  fst (prepare (Fragment_map g (Fragment_map h F)) argOffset) =
    fst (prepare (Fragment_map (fun values => h (g values)) F) argOffset) /\
  bindValues (snd (prepare (Fragment_map g (Fragment_map h F)) argOffset)) values =
    bindValues (snd (prepare (Fragment_map (fun values => h (g values)) F) argOffset)) values.
Proof. by rewrite Fragment_map_map. Qed.

(** [build(mapper)] is [build()] remapped. *)
Lemma build_mapped_map {I A : Type} (b : BuildMethod A) (mapper : Mapper I A) :
  build_mapped b mapper = Fragment_map mapper (build b).
Proof. reflexivity. Qed.


End Remap.

(** ** Raw SQL text *)

(** C5.  A [StringFragment] prepares to its text as it is, with no
    accessors, at every offset and in both editions, given that the
    adapter's [string] copies its input. *)
Theorem StringFragment_prepare_verbatim {fmt : PgFormat} (Hfmt : StringVerbatim fmt)
    {A : Type} (text : string) (argOffset : nat) :
  prepare (A := A) (StringFragment text) argOffset = (text, []) /\
  Index.prepare (A := A) (Index.StringFragment text) argOffset = (text, []).
Proof. simpl. by rewrite Hfmt. Qed.

Lemma StringFragment_prepare_verbatim_witness :
  StringVerbatim sample_format /\
  prepare (fmt := sample_format) (A := JsObject)
          (StringFragment "SELECT 'it''s' FROM t WHERE x = $1") 4 =
    ("SELECT 'it''s' FROM t WHERE x = $1", []).
Proof.
  assert (H : StringVerbatim sample_format) by (intros s; reflexivity).
  split; [exact H |].
  exact (proj1 (StringFragment_prepare_verbatim (fmt := sample_format) H (A := JsObject)
                  "SELECT 'it''s' FROM t WHERE x = $1" 4)).
Defined.

(** ** The argument shorthand *)

(** C6.  [a] with one key, given as a string or as the strings of a template
    without expressions, returns an [ArgumentFragment] whose accessor reads
    that key of the argument: it yields the value the argument holds under
    the key, passes over the properties with other keys, and for a key the
    argument does not have falls back on the prototype, [undefined] when
    that has no such member.  With no key, with more than one string or
    with a number it throws a [TypeError] from the call itself. *)
Theorem a_one_key {proto : ObjectPrototype} :
  (forall key : string,
      a (NameString key) = Return (ArgumentFragment (fun args => get args key))) /\
  (forall key : string,
      a (NameStrings [key]) = Return (ArgumentFragment (fun args => get args key))) /\
  a (NameStrings []) = Throw (TypeError "Argument builder received invalid arguments") /\
  (forall (key1 key2 : string) (more : list string),
      a (NameStrings (key1 :: key2 :: more)) =
        Throw (TypeError "Argument builder received invalid arguments")) /\
  a NameUndefined = Throw (TypeError "Argument builder received invalid arguments") /\
  (forall n : Z,
      a (NameNumber n) = Throw (TypeError "Argument builder received invalid arguments")) /\
  (forall key : string,
      exists accessor : Accessor JsObject,
        a (NameString key) = Return (ArgumentFragment accessor) /\
        a (NameStrings [key]) = Return (ArgumentFragment accessor) /\
        (forall (v : Value) (rest : JsObject), accessor ((key, v) :: rest) = v) /\
        (forall (k : string) (v : Value) (rest : JsObject),
            accessor ((k, v) :: rest) = if String.eqb k key then v else accessor rest) /\
        accessor [] = default VUndefined (inherited key)).
Proof.
  repeat split; try done.
  intros key. exists (fun args => get args key).
  repeat split. intros v rest. simpl. by rewrite String.eqb_refl.
Qed.


(** ** The edition of [src/index.ts] loses its accessors *)

Section IndexFacts.
Context {fmt : PgFormat} {A : Type}.

(** [accessors] is never written: the fold returns the array it was given. *)
Lemma Index_prepareStep_fold prep (fragments : list (Index.Fragment A)) argOffset
    (queryStrings : list string) (accessors : list (Accessor A)) :
  snd (fold_left (Index.prepareStep prep argOffset) fragments (queryStrings, accessors)) =
    accessors.
Proof.
  revert queryStrings. induction fragments as [|F fragments IH]; intros queryStrings.
  - done.
  - simpl. destruct (prep F (argOffset + length accessors)) as [s accs]. apply IH.
Qed.

Theorem Index_staticPrepare_accessors (fragments : list (Index.Fragment A)) argOffset :
  snd (Index.staticPrepare fragments argOffset) = [].
Proof.
  unfold Index.staticPrepare, Index.staticPrepareWith.
  pose proof (Index_prepareStep_fold Index.prepare fragments argOffset [] []) as H.
  destruct (fold_left _ _ _) as [queryStrings accessors]. exact H.
Qed.

(** C1, on the edition of [src/index.ts].  A sequence of two argument
    fragments prepared at offset 0 spells two markers, both numbered 0, and
    returns no accessor at all; so does the [QueryFragment] that holds
    them. *)
Theorem Index_staticPrepare_two_placeholders (f g : Accessor A) :
  Index.staticPrepare [Index.ArgumentFragment f; Index.ArgumentFragment g] 0 =
    ("$0$0", []) /\
  Index.prepare (Index.QueryFragment [Index.ArgumentFragment f; Index.ArgumentFragment g]) 0 =
    ("$0$0", []) /\
  markers "$0$0" = [0; 0].
Proof. repeat split. Qed.

(** The statement sent by [query] therefore never carries a bind value. *)
Theorem Index_query_values {tb : ToBoolean A} (b : Index.BuildMethod A) (conn : Client)
    (name : string) (values : A) :
  Index.query b conn (Some values) name =
    if truthy values
    then Index.Executed
           (conn {| name := name;
                    text := fst (Index.staticPrepare (Index.fragments b) 0);
                    values := [] |})
    else Index.Execute
           (Index.execute conn name (fst (Index.staticPrepare (Index.fragments b) 0)) []).
Proof.
  unfold Index.query.
  pose proof (Index_staticPrepare_accessors (Index.fragments b) 0) as H.
  destruct (Index.staticPrepare _ _) as [text accessors]. simpl in H. subst accessors.
  destruct (truthy values); [| done].
  unfold Index.execute. simpl. by rewrite await_Resolved.
Qed.
End IndexFacts.

(** ** Row validation *)

Section Validation.
Context (validate : QueryResultRow -> bool).

Lemma validateRows_pass (rows : list QueryResultRow) (index : nat) :
  Forall (fun row => validate row = true) rows ->
  validateRows validate index rows = Resolved rows.
Proof.
  intros Hall. revert index. induction Hall as [|row rows Hrow _ IH]; intros index.
  - done.
  - simpl. rewrite Hrow. simpl. by rewrite IH.
Qed.

Lemma validateRows_fail (passed : list QueryResultRow) (row : QueryResultRow)
    (rest : list QueryResultRow) (index : nat) :
  Forall (fun row => validate row = true) passed ->
  validate row = false ->
  validateRows validate index (passed ++ row :: rest) =
    Rejected (TypeError ("Row " +:+ decimal (index + length passed) +:+ " is invalid")).
Proof.
  intros Hall Hrow. revert index. induction Hall as [|row' passed Hrow' _ IH]; intros index.
  - simpl. rewrite Hrow. simpl. by rewrite Nat.add_0_r.
  - replace (index + length (row' :: passed)) with (S index + length passed)
      by (simpl; lia).
    simpl. rewrite Hrow'. simpl. by rewrite IH.
Qed.

(** Either every row passes, or there is a first row that does not. *)
Lemma first_invalid_row (rows : list QueryResultRow) :
  Forall (fun row => validate row = true) rows \/
  exists passed row rest,
    rows = passed ++ row :: rest /\
    Forall (fun row => validate row = true) passed /\ validate row = false.
Proof.
  induction rows as [|row rows IH]; [by left |].
  destruct (validate row) eqn:Hrow.
  - destruct IH as [Hall | (passed & row' & rest & -> & Hpassed & Hrow')].
    + left. by constructor.
    + right. exists (row :: passed), row', rest. repeat split; [| done]. by constructor.
  - right. by exists [], row, rows.
Qed.
End Validation.

Section Execute.
Context {A : Type} {shape : ArgumentShape A}.

(** C7.  Without a predicate the result of the connection is returned as it
    is.  With a predicate, the rows are returned unchanged when all of them
    pass; when a row fails, the call is rejected with the error that names
    the index of the first such row, and no rows are returned. *)
Theorem execute_validates_rows (conn : Client) (options : option QueryOptions)
    (name query : string) (accessors : list (Accessor A)) (values : option A) :
  let config := {| name := name; text := query;
                   values := bindValues accessors (default emptyObject values) |} in
  (validator options = None ->
     execute conn options name query accessors values = conn config) /\
  (forall check ret,
     validator options = Some check -> conn config = Resolved ret ->
     Forall (fun row => check row = true) (rows ret) ->
     execute conn options name query accessors values = Resolved ret) /\
  (forall check ret passed row rest,
     validator options = Some check -> conn config = Resolved ret ->
     rows ret = passed ++ row :: rest ->
     Forall (fun row => check row = true) passed -> check row = false ->
     execute conn options name query accessors values =
       Rejected (TypeError ("Row " +:+ decimal (length passed) +:+ " is invalid"))) /\
  (forall check ret,
     validator options = Some check -> conn config = Resolved ret ->
     (exists index row, rows ret !! index = Some row /\ check row = false) ->
     exists index row,
       rows ret !! index = Some row /\ check row = false /\
       execute conn options name query accessors values =
         Rejected (TypeError ("Row " +:+ decimal index +:+ " is invalid"))).
Proof.
  intros config. unfold execute. fold (bindValues accessors (default emptyObject values)).
  fold config. repeat split.
  - intros ->. apply await_Resolved.
  - intros check ret -> -> Hall. simpl. rewrite validateRows_pass by done.
    simpl. by destruct ret.
  - intros check ret passed row rest -> -> Hrows Hpassed Hrow. simpl.
    rewrite Hrows. by rewrite validateRows_fail.
  - intros check ret -> -> (index & row & Hlookup & Hrow). simpl.
    destruct (first_invalid_row check (rows ret))
      as [Hall | (passed & row' & rest & Hrows & Hpassed & Hrow')].
    + rewrite Forall_lookup in Hall. specialize (Hall index row Hlookup). congruence.
    + exists (length passed), row'. rewrite Hrows. split; [apply list_lookup_middle; done |].
      split; [done |]. by rewrite validateRows_fail.
Qed.
End Execute.


Lemma execute_validates_rows_witness :
  execute (A := JsObject)
          (fun _ => Resolved two_rows) (Some {| validate := Some id_is_number |})
          "q1" "SELECT id FROM t" [] None =
    Rejected (TypeError "Row 1 is invalid").
Proof.
  refine (proj1 (proj2 (proj2 (execute_validates_rows (A := JsObject)
            (fun _ => Resolved two_rows) (Some {| validate := Some id_is_number |})
            "q1" "SELECT id FROM t" [] None)))
            id_is_number two_rows [[("id", VNumber 1)]] [("id", VNull)] []
            eq_refl eq_refl eq_refl _ eq_refl).
  repeat constructor.
Defined.

(** ** The fragments of a template *)

Section Template.
Context {X Y : Type} (g : X -> Y) (h : nat -> Y).

(** A [flatMap] whose callback returns two elements interleaves them. *)
Lemma flatMap_pairs_length (k : nat) (xs : list X) :
  length (flatMap (fun index x => [g x; h (k + index)]) xs) = 2 * length xs.
Proof.
  unfold flatMap. revert k. induction xs as [|x xs IH]; intros k; [done |].
  rewrite imap_cons. simpl.
  rewrite (imap_ext _ (fun index x => [g x; h (S k + index)])).
  - rewrite IH. lia.
  - intros i y _. simpl. do 3 f_equal. lia.
Qed.

Lemma flatMap_pairs_lookup (k : nat) (xs : list X) (i : nat) (x : X) :
  xs !! i = Some x ->
  flatMap (fun index x => [g x; h (k + index)]) xs !! (2 * i) = Some (g x) /\
  flatMap (fun index x => [g x; h (k + index)]) xs !! (2 * i + 1) = Some (h (k + i)).
Proof.
  unfold flatMap. revert k i. induction xs as [|x' xs IH]; intros k i Hi; [done |].
  rewrite imap_cons.
  rewrite (imap_ext _ (fun index x => [g x; h (S k + index)]))
    by (intros j y _; simpl; do 3 f_equal; lia).
  cbn [concat app].
  destruct i as [|i].
  - simpl in *. injection Hi as ->. by rewrite Nat.add_0_r.
  - simpl in Hi. destruct (IH (S k) i Hi) as [H1 H2].
    replace (2 * S i) with (S (S (2 * i))) by lia.
    replace (S (S (2 * i)) + 1) with (S (S (2 * i + 1))) by lia.
    change ((?a :: ?b :: ?l) !! S (S ?n)) with (l !! n).
    rewrite H1, H2. split; [done |]. do 2 f_equal. lia.
Qed.
End Template.

(** C8.  For a template with the strings [s_0 .. s_n] and the expressions
    [e_1 .. e_n], [sql] builds [2 n + 1] fragments: [StringFragment s_i] at
    the even positions, the fragment of [e_(i+1)] at the odd ones, and
    [StringFragment s_n] last, whatever that string is. *)
Theorem sql_fragments_alternate {A : Type} (strings : list string)
    (args : list (Source A)) :
  length strings = S (length args) ->
  length (sql_fragments strings args) = 2 * length args + 1 /\
  (forall i s, strings !! i = Some s ->
               sql_fragments strings args !! (2 * i) = Some (StringFragment s)) /\
  (forall i e, args !! i = Some e ->
               sql_fragments strings args !! (2 * i + 1) = Some (Fragment_from e)) /\
  head (sql_fragments strings args) = StringFragment <$> head strings /\
  last (sql_fragments strings args) = StringFragment <$> last strings.
Proof.
  intros Hlen. unfold sql_fragments.
  set (f := fun (index : nat) (arg : Source A) =>
              [Fragment_from arg; StringFragment (segment strings (index + 1))]).
  pose (h := fun i : nat => StringFragment (A := A) (segment strings (S i))).
  assert (Hf : flatMap f args =
               flatMap (fun index arg => [Fragment_from arg; h (0 + index)]) args).
  { unfold flatMap. f_equal. apply imap_ext. intros i x _. unfold f, h. simpl.
    by rewrite Nat.add_1_r. }
  rewrite Hf. clear Hf f.
  pose proof (flatMap_pairs_length Fragment_from h 0 args) as Hpairs.
  pose proof (flatMap_pairs_lookup Fragment_from h 0 args) as Hlookup.
  set (pairs := flatMap (fun index arg => [Fragment_from arg; h (0 + index)]) args) in *.
  assert (Hlength : length (StringFragment (A := A) (segment strings 0) :: pairs) =
                    2 * length args + 1).
  { cbn [length]. rewrite Hpairs. lia. }
  assert (Hstr : forall i s, strings !! i = Some s ->
             (StringFragment (segment strings 0) :: pairs) !! (2 * i) =
               Some (StringFragment s)).
  { intros i s Hi. destruct i as [|i].
    - simpl. unfold segment. by rewrite Hi.
    - assert (is_Some (args !! i)) as [e He].
      { apply lookup_lt_is_Some. apply lookup_lt_Some in Hi. lia. }
      replace (2 * S i) with (S (2 * i + 1)) by lia.
      change ((?a :: ?l) !! S ?n) with (l !! n).
      destruct (Hlookup i e He) as [_ ->]. unfold h, segment. cbn [Nat.add].
      by rewrite Hi. }
  split; [exact Hlength |]. split; [exact Hstr |]. split; [| split].
  - intros i e He. replace (2 * i + 1) with (S (2 * i)) by lia.
    change ((?a :: ?l) !! S ?n) with (l !! n).
    by destruct (Hlookup i e He) as [-> _].
  - destruct strings as [|s0 strings']; [done |]. done.
  - rewrite !last_lookup, Hlength, Hlen.
    replace (pred (2 * length args + 1)) with (2 * length args) by lia.
    cbn [pred].
    destruct (strings !! length args) as [s|] eqn:Hs.
    + by rewrite (Hstr _ _ Hs).
    + apply lookup_ge_None in Hs. lia.
Qed.

Lemma sql_fragments_alternate_witness :
  length ["SELECT "; " FROM t WHERE id = "; ""] = S (length [SrcValue (A := JsObject) (VNumber 1); SrcAccessor (fun args => get (proto := bare_prototype) args "id")]) /\
  last (sql_fragments ["SELECT "; " FROM t WHERE id = "; ""]
          [SrcValue (A := JsObject) (VNumber 1); SrcAccessor (fun args => get (proto := bare_prototype) args "id")]) =
    Some (StringFragment "").
Proof.
  split; [reflexivity |].
  exact (proj2 (proj2 (proj2 (proj2
    (sql_fragments_alternate ["SELECT "; " FROM t WHERE id = "; ""]
       [SrcValue (A := JsObject) (VNumber 1); SrcAccessor (fun args => get (proto := bare_prototype) args "id")]
       eq_refl))))).
Defined.

(** ** Running a query without an argument *)

Section DefaultArgument.
Context {fmt : PgFormat} {A : Type} {shape : ArgumentShape A}.

Lemma embedded_slots (seg : nat -> string) (args : list (Source A)) :
  slots (flat_map skeleton
           (flatMap (fun index arg => [Fragment_from arg; StringFragment (seg index)]) args)) =
    flat_map (fun arg => slots (skeleton (Fragment_from arg))) args.
Proof.
  unfold flatMap. revert seg. induction args as [|arg args IH]; intros seg; [done |].
  rewrite imap_cons. cbn [concat app flat_map skeleton].
  rewrite !slots_app. cbn [slots app]. f_equal. apply (IH (seg ∘ S)).
Qed.

(** The slots of a template are the slots of its expressions, in order. *)
Lemma sql_fragments_slots (strings : list string) (args : list (Source A)) :
  slots (flat_map skeleton (sql_fragments strings args)) =
    flat_map (fun arg => slots (skeleton (Fragment_from arg))) args.
Proof.
  unfold sql_fragments. cbn [flat_map skeleton app slots].
  apply (embedded_slots (fun index => segment strings (index + 1))).
Qed.

Lemma values_slots (vs : list Value) :
  flat_map (fun arg : Source A => slots (skeleton (Fragment_from arg))) (map SrcValue vs) =
    map (fun v _ => v) vs.
Proof. induction vs as [|v vs IH]; [done |]. simpl. by rewrite IH. Qed.

(** C10.  [execute] called without an argument runs as if it had been
    given the empty object.  A query whose expressions are all plain
    values then sends these values, in order. *)
Theorem execute_without_argument (conn : Client) (options : option QueryOptions)
    (name : string) :
  (forall b : BuildMethod A,
      query b conn options name None = query b conn options name (Some emptyObject)) /\
  (forall (query : string) (accessors : list (Accessor A)),
      execute conn None name query accessors None =
        conn {| name := name; text := query;
                values := bindValues accessors emptyObject |}) /\
  (forall (strings : list string) (vs : list Value),
      query (sql strings (map SrcValue vs)) conn None name None =
        conn {| name := name;
                text := fst (staticPrepare (sql_fragments (A := A) strings (map SrcValue vs)) 1);
                values := vs |}).
Proof.
  split; [| split].
  - intros b. unfold query. by destruct (staticPrepare _ _).
  - intros query accessors. unfold execute. simpl. apply await_Resolved.
  - intros strings vs. unfold query.
    change (fragments (sql strings (map SrcValue vs)))
      with (sql_fragments (A := A) strings (map SrcValue vs)).
    rewrite staticPrepare_layout, sql_fragments_slots, values_slots. cbn [fst].
    unfold execute. simpl. rewrite await_Resolved. do 2 f_equal.
    rewrite map_map. simpl. apply map_id.
Qed.
End DefaultArgument.

(** ** [Fragment.from] on a fragment *)

Section HeapFacts.
Context {A : Type}.
Implicit Types (st : Heap.Store A) (refs : list Heap.ref).

Lemma new_prefix (obj : Heap.FragmentObject A) st : st `prefix_of` snd (Heap.new obj st).
Proof. by apply prefix_app_r. Qed.

Lemma new_lookup (obj : Heap.FragmentObject A) st :
  snd (Heap.new obj st) !! fst (Heap.new obj st) = Some obj.
Proof. simpl. by apply list_lookup_middle. Qed.


Lemma Fragment_from_returns : ReturnsFragments (A := A) Heap.Fragment_from.
Proof. split; [done |]. intros [r|b|f|v] st; simpl; by try apply prefix_app_r. Qed.

Lemma Index_Fragment_from_returns : ReturnsFragments (A := A) Heap.Index_Fragment_from.
Proof. split; [done |]. intros [r|b|f|v] st; simpl; by try apply prefix_app_r. Qed.

Section Embed.
Context (from : Heap.Source A -> Heap.Store A -> Heap.ref * Heap.Store A)
        (Hfrom : ReturnsFragments from) (strings : list string).

Lemma embed_fold (args : list (Heap.Source A)) refs st index :
  exists refs' st' index',
    fold_left (Heap.embed from strings) args (refs, st, index) = (refs', st', index') /\
    st `prefix_of` st' /\
    refs `prefix_of` refs' /\
    forall before r after,
      args = before ++ Heap.SrcFragment r :: after ->
      refs' !! (length refs + 2 * length before) = Some r.
Proof.
  destruct Hfrom as [Hid Hext].
  revert refs st index. induction args as [|arg args IH]; intros refs st index.
  - exists refs, st, index. repeat split; [done | done |].
    intros before r after Heq. by destruct before.
  - simpl. pose proof (Hext arg st) as Hst.
    destruct (from arg st) as [r0 st0] eqn:Harg. simpl in Hst.
    destruct (IH (refs ++ [r0; length st0])
                 (st0 ++ [Heap.StringFragment (segment strings (index + 1))]) (S index))
      as (refs' & st' & index' & Hfold & Hst' & Hrefs' & Hshared).
    exists refs', st', index'. split; [exact Hfold |].
    split; [etrans; [exact Hst |]; etrans; [| exact Hst']; by apply prefix_app_r |].
    split; [etrans; [| exact Hrefs']; by apply prefix_app_r |].
    intros before r after Heq. destruct before as [|arg' before].
    + simpl in Heq. injection Heq as -> ->. rewrite Hid in Harg.
      injection Harg as <- <-.
      apply (prefix_lookup_Some (refs ++ [r; length st])); [| exact Hrefs'].
      rewrite Nat.add_0_r. by apply list_lookup_middle.
    + simpl in Heq. injection Heq as -> ->.
      specialize (Hshared before r after eq_refl).
      rewrite length_app in Hshared. simpl in *.
      rewrite <- Hshared. f_equal. lia.
Qed.

Lemma sql_fragments_shares (before : list (Heap.Source A)) (r : Heap.ref)
    (after : list (Heap.Source A)) st :
  st `prefix_of` snd (Heap.sql_fragments from strings (before ++ Heap.SrcFragment r :: after) st) /\
  fst (Heap.sql_fragments from strings (before ++ Heap.SrcFragment r :: after) st)
    !! (2 * length before + 1) = Some r.
Proof.
  unfold Heap.sql_fragments, Heap.new. cbv beta iota zeta.
  destruct (embed_fold (before ++ Heap.SrcFragment r :: after)
              (@cons Heap.ref (length st) (@nil Heap.ref))
              (st ++ [Heap.StringFragment (segment strings 0)]) 0)
    as (refs' & st' & index' & -> & Hst' & _ & Hshared).
  simpl. split.
  - etrans; [| exact Hst']. by apply prefix_app_r.
  - rewrite <- (Hshared before r after eq_refl). simpl. f_equal. lia.
Qed.
End Embed.
End HeapFacts.

(** C9.  [Fragment.from] applied to a fragment returns the reference it was
    given and creates no object; applied once more to its own result it
    returns the same reference again.  A fragment embedded in two templates
    is therefore one object, referred to by both, and none of the objects
    that existed before is replaced.  On trees, [Fragment.from] is the
    identity on fragments.  All of this holds in both editions. *)
Theorem Fragment_from_fragment {A : Type} :
  (forall (r : Heap.ref) (st : Heap.Store A),
      Heap.Fragment_from (Heap.SrcFragment r) st = (r, st) /\
      Heap.Index_Fragment_from (Heap.SrcFragment r) st = (r, st)) /\
  (forall (source : Heap.Source A) (st : Heap.Store A),
      (let '(r, st') := Heap.Fragment_from source st in
       Heap.Fragment_from (Heap.SrcFragment r) st' = (r, st')) /\
      (let '(r, st') := Heap.Index_Fragment_from source st in
       Heap.Index_Fragment_from (Heap.SrcFragment r) st' = (r, st'))) /\
  (forall (strings1 strings2 : list string) (before1 after1 before2 after2 : list (Heap.Source A))
          (r : Heap.ref) (st : Heap.Store A),
      let '(refs1, st1) :=
        Heap.sql_fragments Heap.Fragment_from strings1
          (before1 ++ Heap.SrcFragment r :: after1) st in
      let '(refs2, st2) :=
        Heap.sql_fragments Heap.Fragment_from strings2
          (before2 ++ Heap.SrcFragment r :: after2) st1 in
      refs1 !! (2 * length before1 + 1) = Some r /\
      refs2 !! (2 * length before2 + 1) = Some r /\
      st `prefix_of` st2) /\
  (forall F : Fragment A,
      Fragment_from (SrcFragment F) = F /\
      Fragment_from (SrcFragment (Fragment_from (SrcFragment F))) = F) /\
  (forall F : Index.Fragment A,
      Index.Fragment_from (Index.SrcFragment F) = F /\
      Index.Fragment_from (Index.SrcFragment (Index.Fragment_from (Index.SrcFragment F))) = F).
Proof.
  split; [done |]. split; [| split; [| done]].
  - intros source st. split.
    + by destruct (Heap.Fragment_from source st).
    + by destruct (Heap.Index_Fragment_from source st).
  - intros strings1 strings2 before1 after1 before2 after2 r st.
    pose proof (sql_fragments_shares _ Fragment_from_returns strings1 before1 r after1 st)
      as [Hst1 Hr1].
    destruct (Heap.sql_fragments _ strings1 _ st) as [refs1 st1].
    pose proof (sql_fragments_shares _ Fragment_from_returns strings2 before2 r after2 st1)
      as [Hst2 Hr2].
    destruct (Heap.sql_fragments _ strings2 _ st1) as [refs2 st2].
    simpl in *. split; [done |]. split; [done |]. by etrans.
Qed.

(** ** The scenarios of the test-suite *)

(** [sql`QUERY`], [sql`QUERY ${3}`] and [sql`QUERY ${(args) => args.value}`]
    called with [{ value: 3 }], run through the sample adapter. *)
Example test_suite_queries {proto : ObjectPrototype} (conn : Client) (name : string) :
  query (fmt := sample_format) (A := JsObject) (sql ["QUERY"] []) conn None name None =
    conn {| name := name; text := "QUERY"; values := [] |} /\
  query (fmt := sample_format) (A := JsObject)
        (sql ["QUERY "; ""] [SrcValue (VNumber 3)]) conn None name None =
    conn {| name := name; text := "QUERY $1"; values := [VNumber 3] |} /\
  query (fmt := sample_format) (A := JsObject)
        (sql ["QUERY "; ""] [SrcAccessor (fun args => get args "value")])
        conn None name (Some [("value", VNumber 3)]) =
    conn {| name := name; text := "QUERY $1"; values := [VNumber 3] |}.
Proof. repeat split; unfold query, execute; simpl; apply await_Resolved. Qed.

(** * Further properties of the library *)

Lemma prepare_markers_witness :
  forallb clean_item (skeleton (fmt := sample_format) (build sample_builder)) = true /\
  markers (fst (prepare (fmt := sample_format) (build sample_builder) 3)) = [3; 4].
Proof.
  split; [reflexivity |].
  exact (prepare_markers (fmt := sample_format) (build sample_builder) 3 eq_refl).
Defined.

(** ** Sequences *)

Section SequenceLaws.
Context {fmt : PgFormat} {A : Type}.
Implicit Types (F X : Fragment A) (before inner after : list (Fragment A)).

(** X5.  A literal or an identifier inside a sequence adds its escaped text
    and nothing else: what follows it is numbered as if it were not there,
    and the accessors are those of the fragments around it. *)
Theorem staticPrepare_inline before after (argOffset : nat) (value : Value) (name : string) :
  let '(text1, accessors1) := staticPrepare before argOffset in
  let '(text3, accessors3) := staticPrepare after (argOffset + length accessors1) in
  staticPrepare (before ++ LiteralFragment value :: after) argOffset =
    (text1 +:+ format_literal value +:+ text3, accessors1 ++ accessors3) /\
  staticPrepare (before ++ IdentifierFragment name :: after) argOffset =
    (text1 +:+ format_ident name +:+ text3, accessors1 ++ accessors3).
Proof.
  pose proof (staticPrepare_nested before (LiteralFragment value) after argOffset) as HL.
  pose proof (staticPrepare_nested before (IdentifierFragment name) after argOffset) as HI.
  destruct (staticPrepare before argOffset) as [text1 accessors1].
  cbn [prepare length] in HL, HI. rewrite Nat.add_0_r in HL, HI.
  destruct (staticPrepare after (argOffset + length accessors1)) as [text3 accessors3].
  by rewrite HL, HI.
Qed.

(** X6.  A sequence nested in a sequence prepares to the same statement as
    the sequence with the inner fragments spliced in. *)
Theorem prepare_flatten before inner after (argOffset : nat) :
  prepare (QueryFragment (before ++ QueryFragment inner :: after)) argOffset =
    prepare (QueryFragment (before ++ inner ++ after)) argOffset.
Proof.
  rewrite !prepare_layout.
  change (skeleton (QueryFragment ?fs)) with (flat_map skeleton fs).
  rewrite !flat_map_app. cbn [flat_map].
  change (skeleton (QueryFragment inner)) with (flat_map skeleton inner).
  done.
Qed.
End SequenceLaws.

(** ** Remapping by the identity *)

(** X4.  Remapping a fragment by the identity mapper gives the fragment
    back. *)
Theorem Fragment_map_id {A : Type} (F : Fragment A) :
  Fragment_map (fun values => values) F = F.
Proof.
  induction F as [text|accessor|fragments IH|value|name|value]
    using Fragment_tree_ind; try reflexivity.
  simpl. f_equal. induction IH as [|F fragments HF _ IHfragments]; [done |].
  simpl. by rewrite HF, IHfragments.
Qed.

(** ** The accessors of a template *)

Section TemplateAccessors.
Context {fmt : PgFormat} {A : Type}.

(** X7.  The accessors of a template are those of its expressions, in the
    order of the expressions; the strings of the template add none, and the
    offset plays no part. *)
Theorem sql_accessors (strings : list string) (args : list (Source A))
    (argOffset offset : nat) :
  snd (staticPrepare (sql_fragments strings args) argOffset) =
    flat_map (fun arg => snd (prepare (Fragment_from arg) offset)) args.
Proof.
  rewrite staticPrepare_layout. cbn [snd]. rewrite sql_fragments_slots.
  induction args as [|arg args IH]; [done |].
  cbn [flat_map]. by rewrite IH, prepare_layout.
Qed.

End TemplateAccessors.

(** ** What [execute] returns *)

Section ExecuteOutcome.
Context {A : Type} {shape : ArgumentShape A}.

(** X8.  Whenever [execute] resolves, the connection has resolved, the rows
    returned are the connection's rows, and, when a predicate was given,
    every one of them passes it. *)
Theorem execute_resolved (conn : Client) (options : option QueryOptions)
    (statement_name query : string) (accessors : list (Accessor A)) (argument : option A) :
  let config := {| name := statement_name; text := query;
                   values := bindValues accessors (default emptyObject argument) |} in
  match execute conn options statement_name query accessors argument with
  | Resolved result =>
      exists ret,
        conn config = Resolved ret /\ rows result = rows ret /\
        match validator options with
        | Some check => Forall (fun row => check row = true) (rows result)
        | None => result = ret
        end
  | Rejected _ => True
  end.
Proof.
  intros config.
  unfold execute. fold (bindValues accessors (default emptyObject argument)). fold config.
  destruct (conn config) as [ret|e]; simpl; [| done].
  destruct (validator options) as [check|]; simpl; [| by exists ret].
  destruct (first_invalid_row check (rows ret))
    as [Hall | (passed & row & rest & Hrows & Hpassed & Hrow)].
  - rewrite validateRows_pass by done. simpl. by exists ret.
  - by rewrite Hrows, validateRows_fail.
Qed.
End ExecuteOutcome.

(** ** The statement that [query] sends *)

Section QueryStatement.
Context {fmt : PgFormat} {A : Type} {shape : ArgumentShape A}.


(** X10.  A query built with the shorthand [a] binds what a read of the key
    on the argument gives: the value itself when the argument has the key;
    when it does not, or when the function is called without an argument,
    the member the prototype has under the key, [undefined] when it has
    none. *)
Theorem query_argument_shorthand {proto : ObjectPrototype} (strings : list string)
    (key : string) (conn : Client) (statement_name : string) :
  match a (NameString key) with
  | Return F =>
      let b := sql strings [SrcFragment F] in
      let sent (argument : JsObject) :=
        conn {| name := statement_name;
                text := fst (staticPrepare (fragments b) 1);
                values := [get argument key] |} in
      (forall argument,
          query b conn None statement_name (Some argument) = sent argument) /\
      query b conn None statement_name None = sent [] /\
      (forall v rest, get ((key, v) :: rest) key = v) /\
      (forall argument,
          get (List.filter (fun kv => negb (String.eqb kv.1 key)) argument) key =
            default VUndefined (inherited key)) /\
      get [] key = default VUndefined (inherited key)
  | Throw _ => False
  end.
Proof.
  cbn [a]. cbv zeta.
  set (b := sql (A := JsObject) strings [SrcFragment (ArgumentFragment (fun args => get args key))]).
  unfold query.
  assert (Haccessors : snd (staticPrepare (fragments b) 1) = [fun args => get args key]).
  { unfold b. cbn [fragments sql]. rewrite staticPrepare_layout. cbn [snd].
    by rewrite sql_fragments_slots. }
  destruct (staticPrepare (fragments b) 1) as [query_text accessors].
  simpl in Haccessors. subst accessors. repeat split.
  - intros argument. unfold execute. simpl. apply await_Resolved.
  - unfold execute. simpl. apply await_Resolved.
  - intros v rest. simpl. by rewrite String.eqb_refl.
  - intros argument. induction argument as [|[k v] argument IH]; [done |].
    simpl. destruct (String.eqb k key) eqn:Hk; simpl; [exact IH |]. by rewrite Hk.
Qed.
End QueryStatement.


(** ** [baseTTL], [i] and [l] *)

Section Helpers.
Context {T : Type} `{ToString T}.

Lemma flatMap_cons {X Y : Type} (f : nat -> X -> list Y) (x : X) (xs : list X) :
  flatMap f (x :: xs) = f 0 x ++ flatMap (fun index => f (S index)) xs.
Proof. unfold flatMap. by rewrite imap_cons. Qed.

Lemma baseTTL_cons (s : string) (strings : list string) (arg : T) (args : list T) :
  baseTTL (s :: strings) (arg :: args) = s +:+ toString arg +:+ baseTTL strings args.
Proof. unfold baseTTL. rewrite flatMap_cons. cbn [app]. by rewrite !join_cons. Qed.

Lemma baseTTL_missing (arg : T) (args : list T) :
  baseTTL [] (arg :: args) = toString arg +:+ baseTTL [] args.
Proof.
  unfold baseTTL. rewrite flatMap_cons. cbn [app].
  rewrite !join_cons. unfold segment. by simpl.
Qed.

(** X11.  [baseTTL] interleaves the strings with the texts of the
    expressions: it starts with the first string, then takes each
    expression followed by the next string.  A string that is missing counts
    as empty, and strings beyond the one after the last expression are not
    read. *)
Theorem baseTTL_interleaves :
  (forall strings : list string, baseTTL strings ([] : list T) = segment strings 0) /\
  (forall (s : string) (strings : list string) (arg : T) (args : list T),
      baseTTL (s :: strings) (arg :: args) = s +:+ toString arg +:+ baseTTL strings args) /\
  (forall (arg : T) (args : list T),
      baseTTL [] (arg :: args) = toString arg +:+ baseTTL [] args) /\
  (forall (strings : list string) (args : list T),
      baseTTL (take (S (length args)) strings) args = baseTTL strings args).
Proof.
  split; [done |]. split; [exact baseTTL_cons |]. split; [exact baseTTL_missing |].
  intros strings args. revert strings. induction args as [|arg args IH]; intros strings.
  - by destruct strings.
  - destruct strings as [|s strings]; [done |].
    cbn [length]. rewrite firstn_cons, !baseTTL_cons. by rewrite IH.
Qed.
End Helpers.

Section HelperFragments.
Context {fmt : PgFormat} {T : Type} `{ToString T} {A : Type}.

End HelperFragments.

(** ** Trace forms *)

Section TraceForms.
Context {js : JsRuntime} {A : Type} {ft : FunctionText A}.

Lemma map_flatMap {X Y Z : Type} (g : Y -> Z) (f : nat -> X -> list Y) (xs : list X) :
  map g (flatMap f xs) = flatMap (fun index x => map g (f index x)) xs.
Proof.
  unfold flatMap. revert f. induction xs as [|x xs IH]; intros f; [done |].
  rewrite !imap_cons. cbn [concat]. rewrite map_app. f_equal. apply (IH (f ∘ S)).
Qed.

(** X13.  The trace form of a template is the interleaving of its strings
    with the trace forms of its expressions, the text [baseTTL] would build
    from them. *)
Theorem sql_toString (strings : list string) (args : list (Source A)) :
  Fragment_toString (build (sql strings args)) =
    baseTTL (H := Source_toString) strings args.
Proof.
  unfold build, sql, sql_fragments, baseTTL. cbn [fragments Fragment_toString map].
  f_equal. f_equal. by rewrite map_flatMap.
Qed.
End TraceForms.

Section IndexTraceForms.
Context {js : JsRuntime}.

(** X14.  In the edition of [src/index.ts] remapping a fragment never
    changes its trace form. *)
Theorem Index_toString_map {I A : Type} (mapper : Mapper I A) (F : Index.Fragment A) :
  Index.Fragment_toString (Index.Fragment_map mapper F) = Index.Fragment_toString F.
Proof.
  induction F as [text|accessor|fragments IH|value|name]
    using Index_Fragment_tree_ind; try reflexivity.
  simpl. f_equal. rewrite map_map.
  induction IH as [|F fragments HF _ IHfragments]; [done |].
  simpl. by rewrite HF, IHfragments.
Qed.
End IndexTraceForms.

(** ** More on the edition of [src/index.ts] *)

Section IndexStatements.
Context {fmt : PgFormat} {A : Type}.

Lemma Index_prepareStep_texts prep (fragments : list (Index.Fragment A)) (argOffset : nat)
    (queryStrings : list string) :
  fold_left (Index.prepareStep prep argOffset) fragments (queryStrings, []) =
    (queryStrings ++ map (fun F => fst (prep F argOffset)) fragments, []).
Proof.
  revert queryStrings. induction fragments as [|F fragments IH]; intros queryStrings.
  - simpl. by rewrite app_nil_r.
  - simpl. rewrite Nat.add_0_r. destruct (prep F argOffset) as [s accessors] eqn:HF.
    rewrite IH. simpl. by rewrite <- app_assoc.
Qed.

(** X15.  In the edition of [src/index.ts] a sequence prepares every child
    at the offset of the sequence itself and returns no accessor, whatever
    the children are. *)
Theorem Index_staticPrepare_same_offset (fragments : list (Index.Fragment A))
    (argOffset : nat) :
  Index.staticPrepare fragments argOffset =
    (String.concat "" (map (fun F => fst (Index.prepare F argOffset)) fragments), []).
Proof.
  unfold Index.staticPrepare, Index.staticPrepareWith.
  by rewrite Index_prepareStep_texts.
Qed.

(** X16.  In the edition of [src/index.ts], [query] called without values
    returns a function.  Called with values that are truthy it returns what
    that function returns for them; called with values that are not, it
    returns the function, as if they had been left out.  Whenever the
    function runs, the statement is sent without bind values. *)
Theorem Index_query_shortcut {tb : ToBoolean A} (b : Index.BuildMethod A) (conn : Client)
    (statement_name : string) :
  match Index.query b conn None statement_name with
  | Index.Execute execute =>
      forall argument : A,
        Index.query b conn (Some argument) statement_name =
          (if truthy argument
           then Index.Executed (execute argument)
           else Index.Execute execute) /\
        execute argument =
          conn {| name := statement_name;
                  text := fst (Index.staticPrepare (Index.fragments b) 0);
                  values := [] |}
  | Index.Executed _ => False
  end.
Proof.
  unfold Index.query, Index.staticPrepare, Index.staticPrepareWith.
  rewrite Index_prepareStep_texts. intros argument. split; [done |].
  unfold Index.execute. simpl. apply await_Resolved.
Qed.
End IndexStatements.

(** ** Builders in the store *)

(** X17.  Embedding the same builder twice creates two different
    [QueryFragment] objects, each holding the builder's own [fragments]
    array; no object that existed before is touched. *)
Theorem Heap_builder_embedded_twice {A : Type} (b : Heap.BuildMethod) (st : Heap.Store A) :
  let '(r1, st1) := Heap.Fragment_from (Heap.SrcBuild b) st in
  let '(r2, st2) := Heap.Fragment_from (Heap.SrcBuild b) st1 in
  r1 <> r2 /\
  st2 !! r1 = Some (Heap.QueryFragment (Heap.fragments b)) /\
  st2 !! r2 = Some (Heap.QueryFragment (Heap.fragments b)) /\
  st `prefix_of` st2.
Proof.
  simpl. rewrite length_app. simpl. split; [lia |]. split; [| split].
  - apply (prefix_lookup_Some (st ++ [Heap.QueryFragment (Heap.fragments b)]));
      [by apply list_lookup_middle | by apply prefix_app_r].
  - apply list_lookup_middle. rewrite length_app. simpl. lia.
  - rewrite <- app_assoc. by apply prefix_app_r.
Qed.
